(** * cryptomepay: request signing and webhook verification

    A shallow embedding of the signing core of [client.go]:
    [generateSignature], [VerifyWebhookSignature],
    [VerifyWebhookSignatureFromMap], [formatAmount] and
    [formatActualAmount], together with the functions of the Go standard
    library they call ([crypto/sha256], [crypto/hmac], [encoding/hex],
    [crypto/subtle], [sort], [fmt]).

    Conventions.
    - A Go [string] and a Go [[]byte] are both sequences of 8-bit bytes; a
      byte is an [ascii], a string a [string], a byte slice a [list ascii].
    - A [uint32] is a [Z] kept in [0, 2^32) by an explicit [mod].
    - A Go [map[string]T] is a [gmap string T].  The order in which [range]
      visits a map is unspecified in Go: every function that ranges over a
      map takes the visiting order as an argument, constrained by
      [range_order]. *)

From Stdlib Require Import ZArith Ascii String List Sorting.Sorted Permutation Lia.
From Stdlib Require Import DecimalString SpecFloat.
From Stdlib Require DecimalZ.
From stdpp Require Import gmap strings list fin_maps sorting finite.

Local Open Scope Z_scope.

(** ** Bytes *)

Definition byte_of_Z (x : Z) : ascii := ascii_of_N (Z.to_N (x mod 256)).
Definition Z_of_byte (b : ascii) : Z := Z.of_N (N_of_ascii b).

(** [[]byte(s)] and [string(b)] *)
Definition bytes_of_string (s : string) : list ascii := list_ascii_of_string s.
Definition string_of_bytes (b : list ascii) : string := string_of_list_ascii b.

(** ** crypto/sha256 *)

Module sha256.

Definition u32 (x : Z) : Z := x mod 2 ^ 32.

Definition add32 (x y : Z) : Z := u32 (x + y).

(** [bits.RotateLeft32(x, -n)] *)
Definition rotr (n x : Z) : Z :=
  Z.lor (Z.shiftr x n) (u32 (Z.shiftl x (32 - n))).

Definition not32 (x : Z) : Z := Z.lxor x 0xffffffff.

(** The first sixty-four primes. *)
Definition primes : list Z :=
  [ 2; 3; 5; 7; 11; 13; 17; 19; 23; 29; 31; 37; 41; 43; 47; 53;
    59; 61; 67; 71; 73; 79; 83; 89; 97; 101; 103; 107; 109; 113; 127; 131;
    137; 139; 149; 151; 157; 163; 167; 173; 179; 181; 191; 193; 197; 199;
    211; 223; 227; 229; 233; 239; 241; 251; 257; 263; 269; 271; 277; 281;
    283; 293; 307; 311 ].

(** The integer cube root of [n < 2^108], found bit by bit. *)
Definition icbrt (n : Z) : Z :=
  fold_left
    (fun k i => let k' := k + 2 ^ Z.of_nat i in if k' ^ 3 <=? n then k' else k)
    (rev (seq 0 36)) 0.

(** The table [_K] of round constants: the first 32 bits of the fractional
    parts of the cube roots of the primes. *)
Definition _K : list Z :=
  Eval vm_compute in map (fun p => u32 (icbrt (p * 2 ^ 96))) primes.

(** The eight chaining words [h[0..7]] of a digest. *)
Record digest := Digest {
  h0 : Z; h1 : Z; h2 : Z; h3 : Z; h4 : Z; h5 : Z; h6 : Z; h7 : Z
}.

(** An initial chaining word: the first 32 bits of the fractional part of
    the square root of a prime. *)
Definition frac_sqrt (p : Z) : Z := u32 (Z.sqrt (p * 2 ^ 64)).

(** The initial value [init0..init7], from the first eight primes. *)
Definition init : digest :=
  Eval vm_compute in
    Digest (frac_sqrt 2) (frac_sqrt 3) (frac_sqrt 5) (frac_sqrt 7)
           (frac_sqrt 11) (frac_sqrt 13) (frac_sqrt 17) (frac_sqrt 19).

Definition word_at (l : list Z) (i : nat) : Z := nth i l 0.

(** Big-endian load of the sixteen words of one 64-byte block. *)
Fixpoint load_words (n : nat) (p : list Z) : list Z :=
  match n with
  | O => []
  | S n' =>
      match p with
      | b0 :: b1 :: b2 :: b3 :: p' =>
          Z.lor (Z.lor (Z.shiftl b0 24) (Z.shiftl b1 16))
                (Z.lor (Z.shiftl b2 8) b3) :: load_words n' p'
      | _ => []
      end
  end.

(** Message schedule: [w[i]] for [i] from 16 on, appended one at a time. *)
Fixpoint schedule (n : nat) (w : list Z) : list Z :=
  match n with
  | O => w
  | S n' =>
      let i := length w in
      let v1 := word_at w (i - 2) in
      let t1 := Z.lxor (Z.lxor (rotr 17 v1) (rotr 19 v1)) (Z.shiftr v1 10) in
      let v2 := word_at w (i - 15) in
      let t2 := Z.lxor (Z.lxor (rotr 7 v2) (rotr 18 v2)) (Z.shiftr v2 3) in
      schedule n'
        (w ++ [add32 (add32 (add32 t1 (word_at w (i - 7))) t2)
                     (word_at w (i - 16))])
  end.

(** One round of the compression function on the working variables. *)
Definition round (s : digest) (kw : Z * Z) : digest :=
  let '(k, w) := kw in
  let '(Digest a b c d e f g h) := s in
  let t1 :=
    add32 (add32 (add32 (add32 h
      (Z.lxor (Z.lxor (rotr 6 e) (rotr 11 e)) (rotr 25 e)))
      (Z.lxor (Z.land e f) (Z.land (not32 e) g))) k) w in
  let t2 :=
    add32 (Z.lxor (Z.lxor (rotr 2 a) (rotr 13 a)) (rotr 22 a))
          (Z.lxor (Z.lxor (Z.land a b) (Z.land a c)) (Z.land b c)) in
  Digest (add32 t1 t2) a b c (add32 d t1) e f g.

(** [blockGeneric] on one block. *)
Definition block (s : digest) (p : list Z) : digest :=
  let w := schedule 48 (load_words 16 p) in
  let '(Digest a b c d e f g h) := fold_left round (combine _K w) s in
  Digest (add32 (h0 s) a) (add32 (h1 s) b) (add32 (h2 s) c) (add32 (h3 s) d)
         (add32 (h4 s) e) (add32 (h5 s) f) (add32 (h6 s) g) (add32 (h7 s) h).

Fixpoint blocks (n : nat) (s : digest) (p : list Z) : digest :=
  match n with
  | O => s
  | S n' => blocks n' (block s (firstn 64 p)) (skipn 64 p)
  end.

Definition be_bytes (nbytes : nat) (x : Z) : list Z :=
  map (fun i => Z.land (Z.shiftr x (8 * Z.of_nat i)) 0xff)
      (rev (seq 0 nbytes)).

(** Padding written by [checkSum]: 0x80, zeros up to 56 mod 64, then the
    length in bits as a big-endian [uint64]. *)
Definition pad (len : Z) : list Z :=
  0x80 :: repeat 0 (Z.to_nat ((55 - len) mod 64))
       ++ be_bytes 8 ((len * 8) mod 2 ^ 64).

Definition put_digest (s : digest) : list ascii :=
  map byte_of_Z
    (flat_map (be_bytes 4)
       [h0 s; h1 s; h2 s; h3 s; h4 s; h5 s; h6 s; h7 s]).

(** [sha256.Sum256] *)
Definition Sum256 (data : list ascii) : list ascii :=
  let p := map Z_of_byte data in
  let m := p ++ pad (Z.of_nat (length p)) in
  put_digest (blocks (length m / 64) init m).

Definition BlockSize : nat := 64.
Definition Size : nat := 32.

End sha256.

(** ** crypto/hmac, instantiated with [sha256.New] *)

Module hmac.

Definition xor_byte (c : Z) (b : ascii) : ascii :=
  byte_of_Z (Z.lxor (Z_of_byte b) c).

(** [hmac.New]: a key longer than the block size is hashed first, then
    the key is zero-padded to the block size. *)
Definition block_key (key : list ascii) : list ascii :=
  let k := if (sha256.BlockSize <? length key)%nat
           then sha256.Sum256 key else key in
  k ++ repeat (byte_of_Z 0) (sha256.BlockSize - length k).

(** [h := hmac.New(sha256.New, key); h.Write(msg); h.Sum(nil)] *)
Definition Sum (key msg : list ascii) : list ascii :=
  let k := block_key key in
  let ipad := map (xor_byte 0x36) k in
  let opad := map (xor_byte 0x5c) k in
  sha256.Sum256 (opad ++ sha256.Sum256 (ipad ++ msg)).

End hmac.

(** ** encoding/hex *)

Module hex.

Definition hextable : string := "0123456789abcdef".

Definition digit (i : Z) : ascii :=
  match String.get (Z.to_nat i) hextable with
  | Some c => c
  | None => "0"%char
  end.

(** [hex.EncodeToString]: [hextable[v>>4]] then [hextable[v&0x0f]]. *)
Fixpoint EncodeToString (src : list ascii) : string :=
  match src with
  | [] => ""
  | v :: src' =>
      String (digit (Z.shiftr (Z_of_byte v) 4))
        (String (digit (Z.land (Z_of_byte v) 0x0f)) (EncodeToString src'))
  end.

End hex.

Definition hmac_hex (key msg : string) : string :=
  hex.EncodeToString (hmac.Sum (bytes_of_string key) (bytes_of_string msg)).

(** ** crypto/subtle *)

Module subtle.

(** [int((uint32(x^y) - 1) >> 31)] *)
Definition ConstantTimeByteEq (x y : Z) : Z :=
  Z.shiftr ((Z.lxor x y - 1) mod 2 ^ 32) 31.

(** The accumulator [v |= x[i] ^ y[i]] over the whole length. *)
Definition or_xor (x y : list ascii) : Z :=
  fold_left (fun v ab => Z.lor v (Z.lxor (Z_of_byte ab.1) (Z_of_byte ab.2)))
            (combine x y) 0.

Definition ConstantTimeCompare (x y : list ascii) : Z :=
  if negb (length x =? length y)%nat then 0
  else ConstantTimeByteEq (or_xor x y) 0.

End subtle.

(** ** sort *)

Module sort.

(** [sort.Strings]: ascending by Go's [<] on strings, which compares byte
    by byte ([String.le] is that order, reflexively closed).  The library
    sorts in place with pattern-defeating quicksort; the result is the
    sorted arrangement of the slice, computed here by [merge_sort]. *)
Definition Strings (x : list string) : list string :=
  merge_sort String.le x.

End sort.

(** ** fmt *)

Module fmt.

(** Go's [float64] is IEEE 754 binary64. *)
Definition float64 : Type := spec_float.
Definition valid_float64 (x : float64) : bool := valid_binary 53 1024 x.

Definition digits (n : Z) : string := NilZero.string_of_uint (N.to_uint (Z.to_N n)).

(** [fmt.Sprintf("%d", n)] *)
Definition Sprintf_d (n : Z) : string := NilZero.string_of_int (Z.to_int n).

(** The nearest integer to [n / d], ties to the even one ([d > 0]). *)
Definition round_half_even (n d : Z) : Z :=
  let q := n / d in
  match Z.compare (2 * (n mod d)) d with
  | Lt => q
  | Gt => q + 1
  | Eq => if Z.even q then q else q + 1
  end.

(** [|x| * 10^prec] rounded to an integer, for [|x| = m * 2^e]. *)
Definition scaled (prec : Z) (m : positive) (e : Z) : Z :=
  if 0 <=? e then Z.pos m * 2 ^ e * 10 ^ prec
  else round_half_even (Z.pos m * 10 ^ prec) (2 ^ (- e)).

Definition zeros (n : nat) : string := string_of_list_ascii (repeat "0"%char n).

Definition fixed (prec : nat) (n : Z) : string :=
  let p := 10 ^ Z.of_nat prec in
  let frac := digits (n mod p) in
  digits (n / p) +:+ "." +:+ zeros (prec - String.length frac) +:+ frac.

Definition sign (s : bool) : string := if s then "-" else "".

(** [fmt.Sprintf("%.<prec>f", x)] for [prec > 0]: the exact value of [x]
    correctly rounded (ties to even) to [prec] decimals. *)
Definition Sprintf_f (prec : nat) (x : float64) : string :=
  match x with
  | S754_nan => "NaN"
  | S754_infinity false => "+Inf"
  | S754_infinity true => "-Inf"
  | S754_zero s => sign s +:+ fixed prec 0
  | S754_finite s m e => sign s +:+ fixed prec (scaled (Z.of_nat prec) m e)
  end.

End fmt.

(** ** client.go *)

Definition ProductionURL : string := "https://api.cryptomepay.com/api/v1".
Definition SandboxURL : string := "https://sandbox.cryptomepay.com/api/v1".

Definition StatusPending : Z := 1.
Definition StatusPaid : Z := 2.
Definition StatusExpired : Z := 3.

(** The [Client] struct; [httpClient] plays no part in signing. *)
Record Client := mkClient {
  apiKey : string;
  apiSecret : string;
  baseURL : string
}.

Definition NewClient (apiKey apiSecret : string) : Client :=
  mkClient apiKey apiSecret ProductionURL.

Record WebhookPayload := mkWebhookPayload {
  TradeID : string;
  OrderID : string;
  Amount : fmt.float64;
  ActualAmount : fmt.float64;
  Token : string;
  ChainType : string;
  BlockTransactionID : string;
  Status : Z;
  Signature : string
}.

Definition formatAmount (amount : fmt.float64) : string := fmt.Sprintf_f 2 amount.

Definition formatActualAmount (amount : fmt.float64) : string := fmt.Sprintf_f 4 amount.

(** [order] is a possible order of visit of [for k, v := range m]. *)
Definition range_order {V} (m : gmap string V) (order : list (string * V)) : Prop :=
  order ≡ₚ map_to_list m.

(** [params[k]]: the zero value when the key is absent. *)
Definition index (params : gmap string string) (k : string) : string :=
  default "" (params !! k).

(** First loop of [generateSignature]: the keys kept, in visiting order. *)
Definition collect_keys (order : list (string * string)) : list string :=
  fold_left
    (fun keys kv =>
       if bool_decide (kv.1 ≠ "signature") && bool_decide (kv.2 ≠ "")
       then keys ++ [kv.1] else keys)
    order [].

(** Second loop of [generateSignature], from index [i] on. *)
Fixpoint write_pairs (params : gmap string string) (i : nat)
    (keys : list string) (builder : string) : string :=
  match keys with
  | [] => builder
  | k :: keys' =>
      let builder := if (0 <? i)%nat then builder +:+ "&" else builder in
      let builder := builder +:+ k in
      let builder := builder +:+ "=" in
      let builder := builder +:+ index params k in
      write_pairs params (S i) keys' builder
  end.

(** The value of [builder.String()] in [generateSignature]. *)
Definition canonical_string (params : gmap string string)
    (order : list (string * string)) : string :=
  write_pairs params 0 (sort.Strings (collect_keys order)) "".

Definition generateSignature (c : Client) (params : gmap string string)
    (order : list (string * string)) : string :=
  hex.EncodeToString
    (hmac.Sum (bytes_of_string (apiSecret c))
              (bytes_of_string (canonical_string params order))).

(** The map literal of [VerifyWebhookSignature]. *)
Definition webhook_params (payload : WebhookPayload) : gmap string string :=
  list_to_map
    [ ("trade_id", TradeID payload);
      ("order_id", OrderID payload);
      ("amount", formatAmount (Amount payload));
      ("actual_amount", formatActualAmount (ActualAmount payload));
      ("token", Token payload);
      ("chain_type", ChainType payload);
      ("block_transaction_id", BlockTransactionID payload);
      ("status", fmt.Sprintf_d (Status payload)) ].

Definition VerifyWebhookSignature (c : Client) (payload : WebhookPayload)
    (order : list (string * string)) : bool :=
  let params := webhook_params payload in
  let expected := generateSignature c params order in
  subtle.ConstantTimeCompare (bytes_of_string expected)
                             (bytes_of_string (Signature payload)) =? 1.

(** A value of type [interface{}]: either its dynamic type is [string], or
    it is some other Go value, of which the code only takes the [%v] form. *)
Inductive any (dyn : Type) : Type :=
  | AnyString (s : string)
  | AnyOther (d : dyn).
Arguments AnyString {dyn} s.
Arguments AnyOther {dyn} d.

Section Untyped.

Context {dyn : Type}.

(** [fmt.Sprintf("%v", d)] on the values that are not strings. *)
Variable Sprintf_v_dyn : dyn -> string.

Definition Sprintf_v (v : any dyn) : string :=
  match v with
  | AnyString s => s
  | AnyOther d => Sprintf_v_dyn d
  end.

(** The loop of [VerifyWebhookSignatureFromMap] that fills [params]. *)
Definition stringify_fields (order : list (string * any dyn))
    : gmap string string :=
  fold_left
    (fun params kv =>
       if bool_decide (kv.1 ≠ "signature")
       then <[kv.1 := Sprintf_v kv.2]> params else params)
    order ∅.

(** [order1] is the order of the range over [payload], [order2] that of
    the range over [params] inside [generateSignature]. *)
Definition VerifyWebhookSignatureFromMap (c : Client)
    (payload : gmap string (any dyn))
    (order1 : list (string * any dyn)) (order2 : list (string * string))
    : bool :=
  match payload !! "signature" with
  | Some (AnyString signature) =>
      let params := stringify_fields order1 in
      let expected := generateSignature c params order2 in
      subtle.ConstantTimeCompare (bytes_of_string expected)
                                 (bytes_of_string signature) =? 1
  | _ => false
  end.

End Untyped.

(** ** Vocabulary of the properties, and the fixtures of the tests *)

(** One of the characters 0-9, a-f. *)
Definition lower_hex (c : ascii) : bool :=
  let n := Z_of_byte c in
  ((48 <=? n) && (n <=? 57)) || ((97 <=? n) && (n <=? 102)).

(** Go's [<] on strings, spelled out on the byte values. *)
Fixpoint bytewise_lt (s t : string) : Prop :=
  match s, t with
  | _, EmptyString => False
  | EmptyString, String _ _ => True
  | String a s', String b t' =>
      Z_of_byte a < Z_of_byte b ∨ (a = b ∧ bytewise_lt s' t')
  end.

(** An entry takes part in the signature. *)
Definition kept (kv : string * string) : Prop :=
  kv.1 ≠ "signature" ∧ kv.2 ≠ "".

Global Instance kept_dec kv : Decision (kept kv).
Proof. unfold kept. apply _. Defined.

(** An entry as it is written: key, ["="], value as it stands. *)
Definition pair_string (kv : string * string) : string :=
  kv.1 +:+ "=" +:+ kv.2.

(** The entries that take part, with their keys ascending. *)
Definition sorted_pairs (params : gmap string string)
    (order : list (string * string)) : list (string * string) :=
  map (λ k, (k, index params k)) (sort.Strings (collect_keys order)).

(** The tail of the second loop: every further pair brings its separator. *)
Fixpoint more_pairs (pairs : list string) : string :=
  match pairs with
  | [] => ""
  | p :: pairs' => "&" +:+ p +:+ more_pairs pairs'
  end.

Definition test_client : Client := NewClient "sk_test_key" "test_secret".

Definition test_params : gmap string string :=
  list_to_map
    [ ("order_id", "ORDER_001"); ("amount", "100.00");
      ("notify_url", "https://example.com/webhook"); ("chain_type", "BSC") ].

Definition test_params1 : gmap string string :=
  list_to_map
    [ ("order_id", "ORDER_001"); ("amount", "100.00");
      ("notify_url", "https://example.com/webhook") ].

Definition test_params2 : gmap string string :=
  list_to_map
    [ ("notify_url", "https://example.com/webhook");
      ("order_id", "ORDER_001"); ("amount", "100.00") ].

Global Instance range_order_dec {V} `{EqDecision V} (m : gmap string V) order :
  Decision (range_order m order).
Proof. unfold range_order. apply _. Defined.

Definition test_params_full : gmap string string :=
  <["signature" := "0123abcd"]> (<["redirect_url" := ""]> test_params).

(** [payload.Signature = signature] *)
Definition set_Signature (payload : WebhookPayload) (signature : string)
    : WebhookPayload :=
  mkWebhookPayload (TradeID payload) (OrderID payload) (Amount payload)
    (ActualAmount payload) (Token payload) (ChainType payload)
    (BlockTransactionID payload) (Status payload) signature.

(** The payload of [TestVerifyWebhookSignature], still unsigned. *)
Definition test_payload : WebhookPayload :=
  {| TradeID := "CP123";
     OrderID := "ORDER_001";
     Amount := S754_finite false 7036874417766400 (-46);
     ActualAmount := S754_finite false 8796093022208000 (-49);
     Token := "0xabc";
     ChainType := "BSC";
     BlockTransactionID := "0x123";
     Status := 2;
     Signature := "" |}.

Definition test_payload_order : list (string * string) :=
  [ ("trade_id", "CP123"); ("order_id", "ORDER_001"); ("amount", "100.00");
    ("actual_amount", "15.6250"); ("token", "0xabc"); ("chain_type", "BSC");
    ("block_transaction_id", "0x123"); ("status", "2") ].

Global Instance any_eq_dec {dyn} `{EqDecision dyn} : EqDecision (any dyn).
Proof. solve_decision. Defined.

(** Records as decoded by a caller into [map[string]interface{}], the
    values other than strings being Go [int]s, which [%v] prints in
    decimal. *)
Definition untyped_unsigned : gmap string (any Z) :=
  list_to_map [ ("order_id", AnyString "ORDER_001"); ("status", AnyOther 2) ].

Definition untyped_bad_signature : gmap string (any Z) :=
  <["signature" := AnyOther 0]> untyped_unsigned.

Definition untyped_signed : gmap string (any Z) :=
  <["signature" :=
      AnyString "f7174c74acca6fbda108557f95193bdf512345c9db173c18a78447a6eb14216b"]>
    untyped_unsigned.

Definition ambiguous1 : gmap string string := {[ "a" := "1&b=2" ]}.
Definition ambiguous2 : gmap string string := {[ "a" := "1"; "b" := "2" ]}.

Definition degenerate_params : gmap string string :=
  list_to_map [ ("signature", "0123abcd"); ("redirect_url", "") ].

(** Two different messages with the same HMAC-SHA256 under [key]. *)
Definition hmac_collision (key m1 m2 : string) : Prop :=
  m1 ≠ m2 ∧
  hmac.Sum (bytes_of_string key) (bytes_of_string m1)
  = hmac.Sum (bytes_of_string key) (bytes_of_string m2).

(** The pair written for key [k]. *)
Definition entry (params : gmap string string) (k : string) : string :=
  pair_string (k, index params k).

(** The eight signed fields of a webhook payload. *)
Inductive field : Set :=
  | FTradeID | FOrderID | FAmount | FActualAmount
  | FToken | FChainType | FBlockTransactionID | FStatus.

Global Instance field_eq_dec : EqDecision field.
Proof. solve_decision. Defined.

Definition field_key (f : field) : string :=
  match f with
  | FTradeID => "trade_id"
  | FOrderID => "order_id"
  | FAmount => "amount"
  | FActualAmount => "actual_amount"
  | FToken => "token"
  | FChainType => "chain_type"
  | FBlockTransactionID => "block_transaction_id"
  | FStatus => "status"
  end.

(** The string under which a field enters [params]. *)
Definition field_string (f : field) (payload : WebhookPayload) : string :=
  match f with
  | FTradeID => TradeID payload
  | FOrderID => OrderID payload
  | FAmount => formatAmount (Amount payload)
  | FActualAmount => formatActualAmount (ActualAmount payload)
  | FToken => Token payload
  | FChainType => ChainType payload
  | FBlockTransactionID => BlockTransactionID payload
  | FStatus => fmt.Sprintf_d (Status payload)
  end.

(** The two payloads hold the same value in field [f]. *)
Definition same_field (f : field) (p p' : WebhookPayload) : Prop :=
  match f with
  | FTradeID => TradeID p' = TradeID p
  | FOrderID => OrderID p' = OrderID p
  | FAmount => Amount p' = Amount p
  | FActualAmount => ActualAmount p' = ActualAmount p
  | FToken => Token p' = Token p
  | FChainType => ChainType p' = ChainType p
  | FBlockTransactionID => BlockTransactionID p' = BlockTransactionID p
  | FStatus => Status p' = Status p
  end.

(** Fields whose value is rounded on the way into [params]. *)
Definition rounded (f : field) : bool :=
  match f with FAmount | FActualAmount => true | _ => false end.

(** A byte slice read as a number, least significant byte first. *)
Definition digest_value (l : list ascii) : Z :=
  foldr (λ b v, Z_of_byte b + 256 * v) 0 l.

(** The string of [n] letters a. *)
Fixpoint a_string (n : nat) : string :=
  match n with
  | O => ""
  | S n' => String "a" (a_string n')
  end.

(** [payload.TradeID = id] *)
Definition set_TradeID (payload : WebhookPayload) (id : string)
    : WebhookPayload :=
  mkWebhookPayload id (OrderID payload) (Amount payload)
    (ActualAmount payload) (Token payload) (ChainType payload)
    (BlockTransactionID payload) (Status payload) (Signature payload).

(** [payload.Amount = amount] *)
Definition set_Amount (payload : WebhookPayload) (amount : fmt.float64)
    : WebhookPayload :=
  mkWebhookPayload (TradeID payload) (OrderID payload) amount
    (ActualAmount payload) (Token payload) (ChainType payload)
    (BlockTransactionID payload) (Status payload) (Signature payload).

(** The payload of [TestIntegration_WebhookSignatureVerification]. *)
Definition paid_payload : WebhookPayload :=
  {| TradeID := "CP123456789";
     OrderID := "TEST_ORDER_001";
     Amount := S754_finite false 7036874417766400 (-46);
     ActualAmount := S754_finite false 8796093022208000 (-49);
     Token := "0xabc123def456";
     ChainType := "BSC";
     BlockTransactionID := "0x789xyz";
     Status := StatusPaid;
     Signature := "" |}.

(** 999.99 and 100.0009765625 as [float64] *)
Definition amount_999_99 : fmt.float64 :=
  S754_finite false 8796005061277778 (-43).
Definition amount_100_0009765625 : fmt.float64 :=
  S754_finite false 7036943137243136 (-46).

(** * Properties *)

(** ** The library models against published digests *)

Example sha256_constants :
  nth_error sha256._K 0 = Some 0x428a2f98 ∧
  nth_error sha256._K 63 = Some 0xc67178f2 ∧
  sha256.h0 sha256.init = 0x6a09e667 ∧ sha256.h7 sha256.init = 0x5be0cd19.
Proof. vm_compute. split_and!; reflexivity. Qed.

Example sha256_empty :
  hex.EncodeToString (sha256.Sum256 []) =
  "e3b0c44298fc1c149afbf4c8996fb92427ae41e4649b934ca495991b7852b855".
Proof. vm_compute. reflexivity. Qed.

Example sha256_abc :
  hex.EncodeToString (sha256.Sum256 (bytes_of_string "abc")) =
  "ba7816bf8f01cfea414140de5dae2223b00361a396177a9cb410ff61f20015ad".
Proof. vm_compute. reflexivity. Qed.

Example hmac_fox :
  hmac_hex "key" "The quick brown fox jumps over the lazy dog" =
  "f7bc83f430538424b13298e6aa6fb143ef4d59a14946175997479dbc2d1a3cd8".
Proof. vm_compute. reflexivity. Qed.

Example hmac_empty :
  hmac_hex "" "" =
  "b613679a0814d9ec772f95d778c35fc5ff1697c493715653c6c712144292c5ad".
Proof. vm_compute. reflexivity. Qed.

Example format_amounts :
  formatAmount (S754_finite false 7036874417766400 (-46)) = "100.00" ∧
  formatAmount (S754_finite false 8796005061277778 (-43)) = "999.99" ∧
  formatAmount (S754_finite false 4503599627370496 (-55)) = "0.12" ∧
  formatAmount (S754_finite true 4611686018427388 (-62)) = "-0.00" ∧
  formatActualAmount (S754_finite false 8796093022208000 (-49)) = "15.6250" ∧
  fmt.Sprintf_d StatusPaid = "2" ∧ fmt.Sprintf_d (-17) = "-17".
Proof. vm_compute. repeat split; reflexivity. Qed.

(** ** Bytes and strings *)

Lemma Z_of_byte_range b : 0 <= Z_of_byte b < 256.
Proof. unfold Z_of_byte. pose proof (N_ascii_bounded b). lia. Qed.

Lemma Z_of_byte_inj a b : Z_of_byte a = Z_of_byte b → a = b.
Proof.
  unfold Z_of_byte. intros H%N2Z.inj.
  rewrite <- (ascii_N_embedding a), <- (ascii_N_embedding b). by rewrite H.
Qed.

Lemma bytes_of_string_inj s t : bytes_of_string s = bytes_of_string t → s = t.
Proof.
  unfold bytes_of_string. intros H.
  rewrite <- (string_of_list_ascii_of_string s),
          <- (string_of_list_ascii_of_string t). by rewrite H.
Qed.

Lemma length_bytes_of_string s : length (bytes_of_string s) = String.length s.
Proof. induction s as [|a s IH]; simpl; [done | by rewrite IH]. Qed.

Lemma string_app_cons a (s t : string) : String a s +:+ t = String a (s +:+ t).
Proof. reflexivity. Qed.

Lemma string_app_nil_l (s : string) : "" +:+ s = s.
Proof. reflexivity. Qed.

Lemma bytes_of_string_app s t :
  bytes_of_string (s +:+ t) = bytes_of_string s ++ bytes_of_string t.
Proof.
  induction s as [|a s IH]; [done|].
  rewrite string_app_cons. simpl. by rewrite IH.
Qed.

Lemma string_app_assoc (s t u : string) : (s +:+ t) +:+ u = s +:+ (t +:+ u).
Proof.
  induction s as [|a s IH]; [done|]. rewrite !string_app_cons. by rewrite IH.
Qed.

Lemma string_app_nil_r (s : string) : s +:+ "" = s.
Proof.
  induction s as [|a s IH]; [done|]. rewrite string_app_cons. by rewrite IH.
Qed.

Lemma string_length_app (s t : string) :
  String.length (s +:+ t) = (String.length s + String.length t)%nat.
Proof.
  induction s as [|a s IH]; [done|]. rewrite string_app_cons. simpl.
  by rewrite IH.
Qed.

(** Cancellation of a common suffix. *)
Lemma string_app_inj_r (s t u : string) : s +:+ u = t +:+ u → s = t.
Proof.
  intros H. apply bytes_of_string_inj.
  apply (f_equal bytes_of_string) in H. rewrite !bytes_of_string_app in H.
  by apply app_inv_tail in H.
Qed.

(** ** encoding/hex: length and alphabet *)

Lemma digit_lower_hex i : lower_hex (hex.digit i) = true.
Proof.
  unfold hex.digit. generalize (Z.to_nat i). intros n.
  do 16 (destruct n as [|n]; [reflexivity|]). reflexivity.
Qed.

Lemma length_EncodeToString src :
  String.length (hex.EncodeToString src) = (2 * length src)%nat.
Proof. induction src as [|v src IH]; simpl; [done | rewrite IH; lia]. Qed.

Lemma EncodeToString_lower_hex src :
  Forall (λ c, lower_hex c = true) (bytes_of_string (hex.EncodeToString src)).
Proof.
  induction src as [|v src IH]; simpl; [constructor|].
  repeat constructor; auto using digit_lower_hex.
Qed.

(** ** crypto/sha256 and crypto/hmac: digest size *)

Lemma length_Sum256 data : length (sha256.Sum256 data) = sha256.Size.
Proof. unfold sha256.Sum256, sha256.put_digest. by rewrite length_map. Qed.

Lemma length_hmac_Sum key msg : length (hmac.Sum key msg) = sha256.Size.
Proof. apply length_Sum256. Qed.

Lemma hmac_hex_length key msg : String.length (hmac_hex key msg) = 64%nat.
Proof. unfold hmac_hex. by rewrite length_EncodeToString, length_hmac_Sum. Qed.

(** ** crypto/subtle: what the comparison returns *)

Lemma lor_byte a b : 0 <= a < 256 → 0 <= b < 256 → 0 <= Z.lor a b < 256.
Proof.
  intros [Ha Ha'] [Hb Hb']. split; [by apply Z.lor_nonneg|].
  destruct (decide (a = 0)) as [->|]; [by rewrite Z.lor_0_l|].
  destruct (decide (b = 0)) as [->|]; [by rewrite Z.lor_0_r|].
  change 256 with (2 ^ 8) in *.
  assert (Z.lor a b ≠ 0) by (rewrite Z.lor_eq_0_iff; tauto).
  assert (0 <= Z.lor a b) by (by apply Z.lor_nonneg).
  apply Z.log2_lt_pow2; [lia|].
  rewrite Z.log2_lor by lia. apply Z.max_lub_lt; apply Z.log2_lt_pow2; lia.
Qed.

Lemma lxor_byte a b : 0 <= a < 256 → 0 <= b < 256 → 0 <= Z.lxor a b < 256.
Proof.
  intros [Ha Ha'] [Hb Hb']. split; [by apply Z.lxor_nonneg|].
  destruct (decide (a = 0)) as [->|]; [by rewrite Z.lxor_0_l|].
  destruct (decide (b = 0)) as [->|]; [by rewrite Z.lxor_0_r|].
  destruct (decide (Z.lxor a b = 0)) as [->|Hne]; [lia|].
  assert (0 <= Z.lxor a b) by (by apply Z.lxor_nonneg).
  change 256 with (2 ^ 8) in *.
  apply Z.log2_lt_pow2; [lia|].
  eapply Z.le_lt_trans; [by apply Z.log2_lxor|].
  apply Z.max_lub_lt; apply Z.log2_lt_pow2; lia.
Qed.

Lemma ConstantTimeByteEq_zero v :
  0 <= v < 256 →
  subtle.ConstantTimeByteEq v 0 = if decide (v = 0) then 1 else 0.
Proof.
  intros Hv. unfold subtle.ConstantTimeByteEq. rewrite Z.lxor_0_r.
  destruct (decide (v = 0)) as [->|Hne]; [reflexivity|].
  rewrite Z.mod_small by lia.
  rewrite Z.shiftr_div_pow2 by lia. apply Z.div_small. lia.
Qed.

Lemma or_xor_acc (l : list (ascii * ascii)) v :
  0 <= v < 256 →
  let r := fold_left
    (fun v ab => Z.lor v (Z.lxor (Z_of_byte ab.1) (Z_of_byte ab.2))) l v in
  0 <= r < 256 ∧ (r = 0 ↔ v = 0 ∧ Forall (λ ab, ab.1 = ab.2) l).
Proof.
  revert v. induction l as [|[a b] l IH]; intros v Hv; simpl.
  - split; [done|]. split; [by intros ->|by intros [-> _]].
  - pose proof (Z_of_byte_range a) as Ha. pose proof (Z_of_byte_range b) as Hb.
    pose proof (lxor_byte _ _ Ha Hb) as Hx.
    destruct (IH _ (lor_byte _ _ Hv Hx)) as [Hr Hiff]. split; [done|].
    rewrite Hiff, Z.lor_eq_0_iff, Z.lxor_eq_0_iff, Forall_cons. simpl.
    split.
    + intros [[-> ?%Z_of_byte_inj] ?]. done.
    + intros [-> [-> ?]]. done.
Qed.

Lemma ConstantTimeCompare_spec x y :
  subtle.ConstantTimeCompare x y = if decide (x = y) then 1 else 0.
Proof.
  unfold subtle.ConstantTimeCompare.
  destruct (length x =? length y)%nat eqn:Hlen; simpl.
  - apply Nat.eqb_eq in Hlen.
    destruct (or_xor_acc (combine x y) 0 ltac:(lia)) as [Hr Hiff].
    fold (subtle.or_xor x y) in Hr, Hiff.
    rewrite ConstantTimeByteEq_zero by done.
    assert (Forall (λ ab : ascii * ascii, ab.1 = ab.2) (combine x y) ↔ x = y)
      as Heq.
    { clear Hr Hiff. revert y Hlen.
      induction x as [|a x IH]; intros [|b y] Hlen; simplify_eq/=; [done|].
      rewrite Forall_cons, (IH y) by done. simpl.
      split; [by intros [-> ->] | by intros [= -> ->]]. }
    destruct (decide (subtle.or_xor x y = 0)) as [H0|H0],
             (decide (x = y)) as [Hxy|Hxy]; try done; exfalso.
    + apply Hxy, Heq, Hiff, H0.
    + apply H0, Hiff. split; [done | by apply Heq].
  - apply Nat.eqb_neq in Hlen. case_decide; [|done]. by subst.
Qed.

Lemma ConstantTimeCompare_eqb (s t : string) :
  (subtle.ConstantTimeCompare (bytes_of_string s) (bytes_of_string t) =? 1)
  = bool_decide (s = t).
Proof.
  rewrite ConstantTimeCompare_spec.
  case_decide as H.
  - apply bytes_of_string_inj in H. by rewrite bool_decide_eq_true_2.
  - rewrite bool_decide_eq_false_2; [done|]. by intros ->.
Qed.

(** ** sort.Strings: the sorted arrangement *)

Lemma bytewise_lt_compare s t : bytewise_lt s t ↔ String.compare s t = Lt.
Proof.
  revert t. induction s as [|a s IH]; intros [|b t]; simpl; try done.
  unfold Ascii.compare, Z_of_byte.
  destruct (N.compare_spec (N_of_ascii a) (N_of_ascii b)) as [Heq|Hlt|Hgt].
  - assert (a = b) as ->.
    { rewrite <- (ascii_N_embedding a), <- (ascii_N_embedding b).
      by rewrite Heq. }
    rewrite <- IH. split; [intros [?|[_ ?]]; [lia|done] | by right].
  - split; [done | intros _; left; lia].
  - split; [intros [?|[-> _]]; lia | done].
Qed.

Lemma le_bytewise_lt s t : String.le s t → s ≠ t → bytewise_lt s t.
Proof.
  unfold String.le, String.leb. intros Hle Hne. apply bytewise_lt_compare.
  destruct (String.compare s t) eqn:Hc; [|done..].
  by apply String.compare_eq_iff in Hc.
Qed.

Lemma Strings_Permutation x : sort.Strings x ≡ₚ x.
Proof. apply merge_sort_Permutation. Qed.

Lemma Strings_StronglySorted x : StronglySorted String.le (sort.Strings x).
Proof. apply StronglySorted_merge_sort; apply _. Qed.

(** The result only depends on the elements, not on their arrangement. *)
Lemma Strings_proper x y : x ≡ₚ y → sort.Strings x = sort.Strings y.
Proof.
  intros Hxy. apply (StronglySorted_unique String.le);
    [apply Strings_StronglySorted..|].
  by rewrite !Strings_Permutation.
Qed.

Lemma StronglySorted_strict (l : list string) :
  StronglySorted String.le l → NoDup l → StronglySorted bytewise_lt l.
Proof.
  induction 1 as [|x l Hl IH Hx]; intros Hnd; [constructor|].
  apply NoDup_cons in Hnd as [Hnotin Hnd]. constructor; [by apply IH|].
  rewrite Forall_forall in Hx |- *. intros y Hy.
  apply le_bytewise_lt; [by apply Hx|]. intros ->.
  by apply Hnotin, list_elem_of_In.
Qed.

(** ** The two loops of generateSignature *)

Lemma collect_keys_filter order : collect_keys order = (filter kept order).*1.
Proof.
  unfold collect_keys.
  enough (∀ acc,
    fold_left (λ keys kv,
      if bool_decide (kv.1 ≠ "signature") && bool_decide (kv.2 ≠ "")
      then keys ++ [kv.1] else keys) order acc
    = acc ++ (filter kept order).*1) as H by apply (H []).
  induction order as [|[k v] order IH]; intros acc; simpl.
  - by rewrite app_nil_r.
  - rewrite IH, filter_cons. unfold kept at 2. simpl.
    destruct (decide (k ≠ "signature" ∧ v ≠ "")) as [[H1 H2]|Hn].
    + rewrite !bool_decide_eq_true_2 by done. simpl. by rewrite <- app_assoc.
    + destruct (decide (k = "signature")) as [->|H1].
      * by rewrite bool_decide_eq_false_2 by (by intros ?).
      * rewrite (bool_decide_eq_true_2 (k ≠ "signature")) by done.
        rewrite bool_decide_eq_false_2; [done|]. intros H2. by apply Hn.
Qed.

Lemma collect_keys_proper order1 order2 :
  order1 ≡ₚ order2 → collect_keys order1 ≡ₚ collect_keys order2.
Proof. intros H. rewrite !collect_keys_filter. by rewrite H. Qed.

Lemma range_order_lookup {V} (m : gmap string V) order k v :
  range_order m order → (k, v) ∈ order ↔ m !! k = Some v.
Proof. unfold range_order. intros ->. apply elem_of_map_to_list. Qed.

Lemma range_order_NoDup {V} (m : gmap string V) order :
  range_order m order → NoDup order.*1.
Proof. unfold range_order. intros ->. apply NoDup_fst_map_to_list. Qed.

Lemma range_order_map_to_list {V} (m : gmap string V) :
  range_order m (map_to_list m).
Proof. unfold range_order. reflexivity. Qed.

Lemma collect_keys_NoDup params order :
  range_order params order → NoDup (collect_keys order).
Proof.
  intros H. rewrite collect_keys_filter.
  eapply sublist_NoDup; [by eapply range_order_NoDup|].
  apply fmap_sublist, sublist_filter.
Qed.

Lemma elem_of_collect_keys params order k :
  range_order params order →
  k ∈ collect_keys order ↔ k ≠ "signature" ∧ ∃ v, params !! k = Some v ∧ v ≠ "".
Proof.
  intros H. rewrite collect_keys_filter, list_elem_of_fmap. split.
  - intros [[k' v] [-> [Hkv Hin]%list_elem_of_filter]].
    destruct Hkv as [H1 H2]. simpl in *. split; [done|]. exists v.
    split; [|done]. by eapply range_order_lookup.
  - intros [H1 (v & Hv & H2)]. exists (k, v). split; [done|].
    apply list_elem_of_filter. split; [done|]. by eapply range_order_lookup.
Qed.

(** The keys written do not depend on the visiting order. *)
Lemma sorted_keys_order params order1 order2 :
  range_order params order1 → range_order params order2 →
  sort.Strings (collect_keys order1) = sort.Strings (collect_keys order2).
Proof.
  unfold range_order. intros H1 H2.
  apply Strings_proper, collect_keys_proper. by rewrite H1, H2.
Qed.

Lemma sorted_pairs_Permutation params order :
  range_order params order →
  sorted_pairs params order ≡ₚ filter kept (map_to_list params).
Proof.
  intros H. unfold sorted_pairs.
  rewrite Strings_Permutation, collect_keys_filter, H.
  rewrite <- list_fmap_compose.
  erewrite (Forall_fmap_ext_1 _ id); [by rewrite list_fmap_id|].
  apply Forall_forall. intros [k v] [_ Hin%elem_of_map_to_list]%list_elem_of_filter.
  unfold index. simpl. by rewrite Hin.
Qed.

Lemma sorted_pairs_StronglySorted params order :
  range_order params order →
  StronglySorted (λ a b, bytewise_lt a.1 b.1) (sorted_pairs params order).
Proof.
  intros H. unfold sorted_pairs.
  assert (StronglySorted bytewise_lt (sort.Strings (collect_keys order))) as Hs.
  { apply StronglySorted_strict; [apply Strings_StronglySorted|].
    rewrite Strings_Permutation. by eapply collect_keys_NoDup. }
  induction Hs as [|k l Hl IH Hk]; simpl; constructor; [done|].
  apply Forall_fmap. by apply (Forall_impl _ _ _ Hk).
Qed.

Lemma write_pairs_more params i keys builder :
  (0 < i)%nat →
  write_pairs params i keys builder =
  builder +:+ more_pairs (map (λ k, pair_string (k, index params k)) keys).
Proof.
  revert i builder. induction keys as [|k keys IH]; intros i builder Hi; simpl.
  - by rewrite string_app_nil_r.
  - destruct (Nat.ltb_spec 0 i) as [_|?]; [|lia].
    rewrite IH by lia. unfold pair_string. simpl.
    by rewrite !string_app_assoc.
Qed.

Lemma concat_more_pairs p pairs :
  String.concat "&" (p :: pairs) = p +:+ more_pairs pairs.
Proof.
  revert p. induction pairs as [|q pairs IH]; intros p.
  - simpl. by rewrite string_app_nil_r.
  - change (String.concat "&" (p :: q :: pairs))
      with (p +:+ "&" +:+ String.concat "&" (q :: pairs)).
    by rewrite IH.
Qed.

Lemma canonical_string_concat params order :
  canonical_string params order =
  String.concat "&" (map pair_string (sorted_pairs params order)).
Proof.
  unfold canonical_string, sorted_pairs. rewrite map_map.
  destruct (sort.Strings (collect_keys order)) as [|k keys]; [done|].
  cbn [map]. rewrite concat_more_pairs. cbn [write_pairs].
  rewrite write_pairs_more by lia. unfold pair_string. simpl.
  by rewrite !string_app_assoc.
Qed.

(** The canonical string is a function of the map alone. *)
Lemma canonical_string_order params order1 order2 :
  range_order params order1 → range_order params order2 →
  canonical_string params order1 = canonical_string params order2.
Proof.
  intros H1 H2. unfold canonical_string.
  by rewrite (sorted_keys_order params order1 order2).
Qed.

Lemma generateSignature_order c params order1 order2 :
  range_order params order1 → range_order params order2 →
  generateSignature c params order1 = generateSignature c params order2.
Proof.
  intros H1 H2. unfold generateSignature.
  by rewrite (canonical_string_order params order1 order2).
Qed.

(** An entry that is absent and an entry with the empty value are read
    alike by [params[k]] and are left out alike: the canonical string
    depends on the map through [index] away from the reserved key only. *)
Lemma index_nonempty params k :
  index params k ≠ "" ↔ ∃ v, params !! k = Some v ∧ v ≠ "".
Proof.
  unfold index. destruct (params !! k) as [v|]; simpl.
  - split; [by exists v | by intros (? & [= <-] & ?)].
  - split; [done | by intros (? & ? & ?)].
Qed.

Lemma canonical_string_agree p1 p2 order1 order2 :
  range_order p1 order1 → range_order p2 order2 →
  (∀ k, k ≠ "signature" → index p1 k = index p2 k) →
  canonical_string p1 order1 = canonical_string p2 order2.
Proof.
  intros H1 H2 Hidx. unfold canonical_string.
  assert (sort.Strings (collect_keys order1) = sort.Strings (collect_keys order2))
    as <-.
  { apply Strings_proper, NoDup_Permutation;
      [by eapply collect_keys_NoDup..|].
    intros k. rewrite (elem_of_collect_keys p1), (elem_of_collect_keys p2) by done.
    rewrite <- !index_nonempty. split; intros [Hk Hv]; (split; [done|]).
    - by rewrite <- Hidx.
    - by rewrite Hidx. }
  assert (Forall (λ k, k ≠ "signature") (sort.Strings (collect_keys order1)))
    as Hkeys.
  { rewrite Strings_Permutation. apply Forall_forall. intros k Hk.
    by apply (elem_of_collect_keys p1) in Hk as [? _]. }
  generalize 0%nat, "". induction Hkeys as [|k keys Hk _ IH]; intros i b.
  - done.
  - cbn [write_pairs]. rewrite (Hidx k Hk). apply IH.
Qed.

Lemma generateSignature_agree c p1 p2 order1 order2 :
  range_order p1 order1 → range_order p2 order2 →
  (∀ k, k ≠ "signature" → index p1 k = index p2 k) →
  generateSignature c p1 order1 = generateSignature c p2 order2.
Proof.
  intros H1 H2 Hidx. unfold generateSignature.
  by rewrite (canonical_string_agree p1 p2 order1 order2).
Qed.

(** The signature is always 64 lower-case hexadecimal digits. *)
Lemma generateSignature_hex c params order :
  String.length (generateSignature c params order) = 64%nat ∧
  Forall (λ ch, lower_hex ch = true)
         (bytes_of_string (generateSignature c params order)).
Proof.
  unfold generateSignature. split.
  - by rewrite length_EncodeToString, length_hmac_Sum.
  - apply EncodeToString_lower_hex.
Qed.

(** The parameters of [TestGenerateSignature]. *)
Example test_params_signature :
  canonical_string test_params (map_to_list test_params) =
    "amount=100.00&chain_type=BSC&notify_url=https://example.com/webhook&order_id=ORDER_001" ∧
  generateSignature test_client test_params (map_to_list test_params) =
    "6e668e2f2b5d7be4d5bce9e5c106c0aae5efccfc3ca14450a37aac95f9ab4104".
Proof. vm_compute. split; reflexivity. Qed.

(** ** The canonical string *)

(** C1. Whatever the order in which the map is visited, the canonical
    string handed to HMAC is: the entries of the map whose key is not
    ["signature"] and whose value is not empty, arranged with their keys
    strictly ascending byte by byte, each written [key=value] with the value
    verbatim, joined by ["&"] (so with no separator at either end). *)
Theorem canonical_string_spec (params : gmap string string) order :
  range_order params order →
  ∃ kvs : list (string * string),
    kvs ≡ₚ filter kept (map_to_list params) ∧
    StronglySorted (λ a b, bytewise_lt a.1 b.1) kvs ∧
    canonical_string params order = String.concat "&" (map pair_string kvs).
Proof.
  intros H. exists (sorted_pairs params order). split_and!.
  - by apply sorted_pairs_Permutation.
  - by apply sorted_pairs_StronglySorted.
  - apply canonical_string_concat.
Qed.

Lemma canonical_string_spec_witness :
  ∃ kvs : list (string * string),
    kvs ≡ₚ filter kept (map_to_list test_params_full) ∧
    StronglySorted (λ a b, bytewise_lt a.1 b.1) kvs ∧
    canonical_string test_params_full
      [ ("signature", "0123abcd"); ("order_id", "ORDER_001");
        ("redirect_url", ""); ("chain_type", "BSC"); ("amount", "100.00");
        ("notify_url", "https://example.com/webhook") ]
    = String.concat "&" (map pair_string kvs).
Proof.
  apply (canonical_string_spec test_params_full).
  apply (bool_decide_unpack _). vm_compute. exact I.
Defined.

Example canonical_string_full :
  canonical_string test_params_full
    [ ("signature", "0123abcd"); ("order_id", "ORDER_001");
      ("redirect_url", ""); ("chain_type", "BSC"); ("amount", "100.00");
      ("notify_url", "https://example.com/webhook") ]
  = "amount=100.00&chain_type=BSC&notify_url=https://example.com/webhook&order_id=ORDER_001".
Proof. vm_compute. reflexivity. Qed.

(** C2. Signing is deterministic and independent of order: two maps holding
    the same key/value pairs, however they were built and in whatever order
    each is visited, give the same canonical string and, under every
    secret, the same signature. *)
Theorem generateSignature_order_independent c
    (p1 p2 : gmap string string) order1 order2 :
  (∀ k v, p1 !! k = Some v ↔ p2 !! k = Some v) →
  range_order p1 order1 → range_order p2 order2 →
  canonical_string p1 order1 = canonical_string p2 order2 ∧
  generateSignature c p1 order1 = generateSignature c p2 order2.
Proof.
  intros Hsame H1 H2.
  assert (p1 = p2) as <-.
  { apply map_eq. intros k. apply option_eq. intros v. apply Hsame. }
  split; [by apply canonical_string_order | by apply generateSignature_order].
Qed.

Lemma generateSignature_order_independent_witness :
  canonical_string test_params1
    [ ("order_id", "ORDER_001"); ("amount", "100.00");
      ("notify_url", "https://example.com/webhook") ]
  = canonical_string test_params2
    [ ("notify_url", "https://example.com/webhook");
      ("order_id", "ORDER_001"); ("amount", "100.00") ] ∧
  generateSignature test_client test_params1
    [ ("order_id", "ORDER_001"); ("amount", "100.00");
      ("notify_url", "https://example.com/webhook") ]
  = generateSignature test_client test_params2
    [ ("notify_url", "https://example.com/webhook");
      ("order_id", "ORDER_001"); ("amount", "100.00") ].
Proof.
  apply (generateSignature_order_independent test_client
           test_params1 test_params2).
  - intros k v. assert (test_params1 = test_params2) as -> by reflexivity.
    reflexivity.
  - apply (bool_decide_unpack _). vm_compute. exact I.
  - apply (bool_decide_unpack _). vm_compute. exact I.
Defined.

(** ** Webhook verification *)

Lemma webhook_params_set_Signature payload signature :
  webhook_params (set_Signature payload signature) = webhook_params payload.
Proof. reflexivity. Qed.

Lemma Signature_set_Signature payload signature :
  Signature (set_Signature payload signature) = signature.
Proof. reflexivity. Qed.

Lemma VerifyWebhookSignature_decide c payload order :
  VerifyWebhookSignature c payload order =
  bool_decide (generateSignature c (webhook_params payload) order
               = Signature payload).
Proof. unfold VerifyWebhookSignature. apply ConstantTimeCompare_eqb. Qed.

Example test_payload_valid :
  fmt.valid_float64 (Amount test_payload) = true ∧
  fmt.valid_float64 (ActualAmount test_payload) = true ∧
  range_order (webhook_params test_payload) test_payload_order.
Proof.
  split_and!; [reflexivity..|]. apply (bool_decide_unpack _). vm_compute. exact I.
Qed.

(** C3. [VerifyWebhookSignature] answers true exactly when the payload's
    signature field is the string recomputed by [generateSignature] over
    the other fields under the client's secret; a signature field that is
    not 64 bytes long is therefore always refused, and a payload carrying
    the signature computed over its own fields with the same secret is
    always accepted. *)
Theorem VerifyWebhookSignature_spec c payload order order' :
  range_order (webhook_params payload) order →
  range_order (webhook_params payload) order' →
  (VerifyWebhookSignature c payload order = true ↔
     Signature payload = generateSignature c (webhook_params payload) order') ∧
  (String.length (Signature payload) ≠ 64%nat →
     VerifyWebhookSignature c payload order = false) ∧
  VerifyWebhookSignature c
    (set_Signature payload (generateSignature c (webhook_params payload) order'))
    order = true.
Proof.
  intros H H'. rewrite !VerifyWebhookSignature_decide.
  rewrite (generateSignature_order c _ order order') by done.
  split_and!.
  - rewrite bool_decide_eq_true. split; by intros ->.
  - intros Hlen. apply bool_decide_eq_false. intros Heq. apply Hlen.
    rewrite <- Heq. apply generateSignature_hex.
  - apply bool_decide_eq_true. rewrite webhook_params_set_Signature. simpl.
    by apply generateSignature_order.
Qed.

Lemma VerifyWebhookSignature_spec_witness :
  (VerifyWebhookSignature test_client test_payload test_payload_order = true ↔
     Signature test_payload =
     generateSignature test_client (webhook_params test_payload)
       (reverse test_payload_order)) ∧
  (String.length (Signature test_payload) ≠ 64%nat →
     VerifyWebhookSignature test_client test_payload test_payload_order = false) ∧
  VerifyWebhookSignature test_client
    (set_Signature test_payload
       (generateSignature test_client (webhook_params test_payload)
          (reverse test_payload_order)))
    test_payload_order = true.
Proof.
  apply (VerifyWebhookSignature_spec test_client test_payload).
  - apply (bool_decide_unpack _). vm_compute. exact I.
  - apply (bool_decide_unpack _). vm_compute. exact I.
Defined.

(** The two assertions of [TestVerifyWebhookSignature]. *)
Example TestVerifyWebhookSignature :
  let validSignature :=
    generateSignature test_client (webhook_params test_payload)
      test_payload_order in
  VerifyWebhookSignature test_client
    (set_Signature test_payload validSignature) test_payload_order = true ∧
  VerifyWebhookSignature test_client
    (set_Signature test_payload "invalid_signature_here") test_payload_order
  = false.
Proof. vm_compute. split; reflexivity. Qed.

(** ** Exclusions *)

(** C4. Adding an entry under the key ["signature"], whatever its value,
    leaves the signature unchanged; so does adding an entry with the empty
    value under a key the map does not hold. *)
Theorem generateSignature_exclusion c (p : gmap string string) order :
  range_order p order →
  (∀ v order', range_order (<["signature" := v]> p) order' →
     generateSignature c (<["signature" := v]> p) order'
     = generateSignature c p order) ∧
  (∀ k order', p !! k = None → range_order (<[k := ""]> p) order' →
     generateSignature c (<[k := ""]> p) order' = generateSignature c p order).
Proof.
  intros H. split.
  - intros v order' H'. apply generateSignature_agree; [done..|].
    intros k Hk. unfold index. by rewrite lookup_insert_ne.
  - intros k0 order' Hnone H'. apply generateSignature_agree; [done..|].
    intros k _. unfold index. destruct (decide (k0 = k)) as [->|Hne].
    + by rewrite lookup_insert_eq, Hnone.
    + by rewrite lookup_insert_ne.
Qed.

Lemma generateSignature_exclusion_witness :
  (∀ v order', range_order (<["signature" := v]> test_params) order' →
     generateSignature test_client (<["signature" := v]> test_params) order'
     = generateSignature test_client test_params (map_to_list test_params)) ∧
  (∀ k order', test_params !! k = None →
     range_order (<[k := ""]> test_params) order' →
     generateSignature test_client (<[k := ""]> test_params) order'
     = generateSignature test_client test_params (map_to_list test_params)).
Proof.
  apply (generateSignature_exclusion test_client test_params).
  apply (bool_decide_unpack _). vm_compute. exact I.
Defined.

Example exclusion_examples :
  generateSignature test_client test_params_full (map_to_list test_params_full)
  = generateSignature test_client test_params (map_to_list test_params).
Proof. vm_compute. reflexivity. Qed.

(** ** Shape of the signature *)

(** C7. For a non-empty map and a non-empty secret, the signature is
    exactly 64 characters long and each of them is a lower-case hexadecimal
    digit. *)
Theorem generateSignature_64_hex c (params : gmap string string) order :
  params ≠ ∅ → apiSecret c ≠ "" → range_order params order →
  String.length (generateSignature c params order) = 64%nat ∧
  Forall (λ ch, lower_hex ch = true)
         (bytes_of_string (generateSignature c params order)).
Proof. intros _ _ _. apply generateSignature_hex. Qed.

Lemma generateSignature_64_hex_witness :
  String.length
    (generateSignature test_client test_params (map_to_list test_params))
  = 64%nat ∧
  Forall (λ ch, lower_hex ch = true)
    (bytes_of_string
       (generateSignature test_client test_params (map_to_list test_params))).
Proof.
  apply (generateSignature_64_hex test_client test_params).
  - done.
  - done.
  - apply (bool_decide_unpack _). vm_compute. exact I.
Defined.

(** ** The untyped path *)

Section UntypedProperties.

Context {dyn : Type}.
Variable Sprintf_v_dyn : dyn -> string.

Local Abbreviation fmt_v := (Sprintf_v Sprintf_v_dyn).
Local Abbreviation fill := (stringify_fields Sprintf_v_dyn).

Lemma stringify_step (params : gmap string string) (kv : string * any dyn) :
  (if bool_decide (kv.1 ≠ "signature")
   then <[kv.1 := fmt_v kv.2]> params else params)
  = if decide (kv.1 = "signature") then params
    else <[kv.1 := fmt_v kv.2]> params.
Proof.
  destruct (decide (kv.1 = "signature")) as [H|H].
  - by rewrite bool_decide_eq_false_2 by (by intros ?).
  - by rewrite bool_decide_eq_true_2.
Qed.

(** What the filling loop leaves under each key, from any start. *)
Lemma stringify_lookup (order : list (string * any dyn))
    (acc : gmap string string) k :
  NoDup order.*1 →
  fold_left
    (fun params kv =>
       if bool_decide (kv.1 ≠ "signature")
       then <[kv.1 := fmt_v kv.2]> params else params)
    order acc !! k
  = match (list_to_map order : gmap string (any dyn)) !! k with
    | Some v => if decide (k = "signature") then acc !! k
                else Some (fmt_v v)
    | None => acc !! k
    end.
Proof.
  revert acc. induction order as [|[k0 v0] order IH]; intros acc Hnd.
  - simpl. by rewrite lookup_empty.
  - apply NoDup_cons in Hnd as [Hnotin Hnd]. cbn [fold_left].
    rewrite IH, stringify_step by done. cbn [list_to_map foldr fst snd].
    destruct (decide (k0 = k)) as [->|Hne].
    + rewrite lookup_insert_eq.
      rewrite (not_elem_of_list_to_map_1 order k) by done.
      destruct (decide (k = "signature")); [done|].
      by rewrite lookup_insert_eq.
    + rewrite lookup_insert_ne by done.
      destruct (decide (k0 = "signature")); [done|].
      rewrite lookup_insert_ne by done. done.
Qed.

(** The loop stringifies every field but the signature. *)
Lemma stringify_fields_spec (payload : gmap string (any dyn)) order :
  range_order payload order →
  fill order = fmt_v <$> delete "signature" payload.
Proof.
  intros H. apply map_eq. intros k. unfold stringify_fields.
  rewrite stringify_lookup by (by eapply range_order_NoDup).
  assert ((list_to_map order : gmap string (any dyn)) = payload) as ->.
  { unfold range_order in H.
    rewrite (list_to_map_proper order (map_to_list payload));
      [apply list_to_map_to_list | by eapply range_order_NoDup | done]. }
  rewrite lookup_fmap, lookup_empty.
  destruct (decide (k = "signature")) as [->|Hne].
  - rewrite lookup_delete_eq. by destruct (payload !! "signature").
  - rewrite lookup_delete_ne by done. by destruct (payload !! k).
Qed.

(** C8. When the record has no ["signature"] entry, or that entry is not
    a string, [VerifyWebhookSignatureFromMap] answers false, whatever the
    secret, the other fields and the visiting orders (so no signature
    enters the answer).  Otherwise the map it signs is the record without
    its signature entry, every value replaced by its generic [%v] form,
    and the answer is that of the constant-time comparison of the
    recomputed signature with the received one: true exactly when they
    are equal. *)
Theorem VerifyWebhookSignatureFromMap_spec c
    (payload : gmap string (any dyn)) order1 order2 :
  ((∀ s, payload !! "signature" ≠ Some (AnyString s)) →
     ∀ c' o1 o2,
       VerifyWebhookSignatureFromMap Sprintf_v_dyn c' payload o1 o2 = false) ∧
  (∀ signature, payload !! "signature" = Some (AnyString signature) →
     range_order payload order1 →
     range_order (fill order1) order2 →
     let params := fmt_v <$> delete "signature" payload in
     fill order1 = params ∧
     VerifyWebhookSignatureFromMap Sprintf_v_dyn c payload order1 order2
     = (subtle.ConstantTimeCompare
          (bytes_of_string (generateSignature c params order2))
          (bytes_of_string signature) =? 1) ∧
     (VerifyWebhookSignatureFromMap Sprintf_v_dyn c payload order1 order2
      = true ↔ signature = generateSignature c params order2)).
Proof.
  split.
  - intros Hno c' o1 o2. unfold VerifyWebhookSignatureFromMap.
    destruct (payload !! "signature") as [[s|d]|] eqn:Hs; [|done..].
    by destruct (Hno s).
  - intros signature Hs H1 H2 params.
    assert (fill order1 = params) as Hp
      by (by apply stringify_fields_spec).
    unfold VerifyWebhookSignatureFromMap. rewrite Hs.
    fold (fill order1). rewrite Hp. split_and!; [done..|].
    rewrite ConstantTimeCompare_eqb, bool_decide_eq_true.
    split; by intros ->.
Qed.

End UntypedProperties.

Lemma VerifyWebhookSignatureFromMap_spec_witness :
  (∀ c' o1 o2,
     VerifyWebhookSignatureFromMap fmt.Sprintf_d c' untyped_unsigned o1 o2
     = false) ∧
  (∀ c' o1 o2,
     VerifyWebhookSignatureFromMap fmt.Sprintf_d c' untyped_bad_signature o1 o2
     = false) ∧
  (VerifyWebhookSignatureFromMap fmt.Sprintf_d test_client untyped_signed
     (map_to_list untyped_signed)
     [ ("status", "2"); ("order_id", "ORDER_001") ] = true ↔
   "f7174c74acca6fbda108557f95193bdf512345c9db173c18a78447a6eb14216b"
   = generateSignature test_client
       (Sprintf_v fmt.Sprintf_d <$> delete "signature" untyped_signed)
       [ ("status", "2"); ("order_id", "ORDER_001") ]).
Proof.
  split_and!.
  - apply (proj1 (VerifyWebhookSignatureFromMap_spec fmt.Sprintf_d
                    test_client untyped_unsigned [] [])).
    intros s. vm_compute. discriminate.
  - apply (proj1 (VerifyWebhookSignatureFromMap_spec fmt.Sprintf_d
                    test_client untyped_bad_signature [] [])).
    intros s. vm_compute. discriminate.
  - apply (proj2 (VerifyWebhookSignatureFromMap_spec fmt.Sprintf_d
                    test_client untyped_signed _ _) _).
    + vm_compute. reflexivity.
    + apply (bool_decide_unpack _). vm_compute. exact I.
    + apply (bool_decide_unpack _). vm_compute. exact I.
Defined.

Example untyped_examples :
  VerifyWebhookSignatureFromMap fmt.Sprintf_d test_client untyped_unsigned
    (map_to_list untyped_unsigned) [] = false ∧
  canonical_string (stringify_fields fmt.Sprintf_d (map_to_list untyped_signed))
    [ ("status", "2"); ("order_id", "ORDER_001") ]
  = "order_id=ORDER_001&status=2" ∧
  VerifyWebhookSignatureFromMap fmt.Sprintf_d test_client untyped_signed
    (map_to_list untyped_signed)
    [ ("status", "2"); ("order_id", "ORDER_001") ] = true.
Proof. vm_compute. split_and!; reflexivity. Qed.

(** ** Ambiguity of the canonical string *)


Example ambiguous_canonical_string :
  canonical_string ambiguous1 (map_to_list ambiguous1) = "a=1&b=2" ∧
  canonical_string ambiguous2 (map_to_list ambiguous2) = "a=1&b=2".
Proof. vm_compute. split; reflexivity. Qed.

(** ** Degenerate inputs *)

Section Degenerate.

Context {dyn : Type}.
Variable Sprintf_v_dyn : dyn -> string.

(** C10. When no entry of the map takes part (every entry has the key
    ["signature"] or the empty value; in particular for the empty map),
    [generateSignature] returns the hexadecimal HMAC-SHA256 of the empty
    message under the secret, 64 lower-case hexadecimal digits; and on a
    record whose only entry is a string under ["signature"],
    [VerifyWebhookSignatureFromMap] answers whether that string is this
    HMAC of the empty message. *)
Theorem generateSignature_degenerate c (params : gmap string string) order :
  range_order params order →
  (∀ k v, params !! k = Some v → k = "signature" ∨ v = "") →
  generateSignature c params order = hmac_hex (apiSecret c) "" ∧
  String.length (hmac_hex (apiSecret c) "") = 64%nat ∧
  Forall (λ ch, lower_hex ch = true)
         (bytes_of_string (hmac_hex (apiSecret c) "")) ∧
  ∀ (signature : string) order1 order2,
    range_order ({[ "signature" := AnyString signature ]}
                   : gmap string (any dyn)) order1 →
    range_order (stringify_fields Sprintf_v_dyn order1) order2 →
    VerifyWebhookSignatureFromMap Sprintf_v_dyn c
      {[ "signature" := AnyString signature ]} order1 order2
    = bool_decide (signature = hmac_hex (apiSecret c) "").
Proof.
  intros H Hall.
  assert (∀ (p : gmap string string) o, range_order p o →
            (∀ k v, p !! k = Some v → k = "signature" ∨ v = "") →
            generateSignature c p o = hmac_hex (apiSecret c) "") as Hempty.
  { intros p o Hp Hp'. unfold generateSignature, hmac_hex, canonical_string.
    assert (collect_keys o = []) as ->; [|done].
    apply elem_of_nil_inv. intros k.
    rewrite (elem_of_collect_keys p) by done.
    intros [Hk (v & Hv & Hne)]. by destruct (Hp' k v Hv). }
  split_and!.
  - by apply Hempty.
  - apply hmac_hex_length.
  - apply EncodeToString_lower_hex.
  - intros signature order1 order2 H1 H2.
    unfold VerifyWebhookSignatureFromMap. rewrite lookup_singleton_eq.
    rewrite ConstantTimeCompare_eqb.
    rewrite (Hempty _ order2 H2).
    + apply bool_decide_ext. split; by intros ->.
    + intros k v.
      rewrite (stringify_fields_spec Sprintf_v_dyn _ _ H1).
      by rewrite delete_singleton_eq, fmap_empty, lookup_empty.
Qed.

End Degenerate.

Lemma generateSignature_degenerate_witness :
  generateSignature test_client degenerate_params
    [ ("redirect_url", ""); ("signature", "0123abcd") ]
  = hmac_hex "test_secret" "" ∧
  String.length (hmac_hex "test_secret" "") = 64%nat ∧
  Forall (λ ch, lower_hex ch = true)
         (bytes_of_string (hmac_hex "test_secret" "")) ∧
  ∀ (signature : string) order1 order2,
    range_order ({[ "signature" := AnyString signature ]}
                   : gmap string (any Z)) order1 →
    range_order (stringify_fields fmt.Sprintf_d order1) order2 →
    VerifyWebhookSignatureFromMap fmt.Sprintf_d test_client
      {[ "signature" := AnyString signature ]} order1 order2
    = bool_decide (signature = hmac_hex "test_secret" "").
Proof.
  apply (generateSignature_degenerate fmt.Sprintf_d test_client
           degenerate_params).
  - apply (bool_decide_unpack _). vm_compute. exact I.
  - intros k v Hkv. apply elem_of_map_to_list in Hkv.
    vm_compute in Hkv. inversion_clear Hkv as [|? ? ? Hkv']; [by left|].
    inversion_clear Hkv' as [|? ? ? Hkv]; [by right|]. inversion Hkv.
Defined.

Example degenerate_examples :
  generateSignature test_client ∅ [] =
    "f7f9bd47fb987337b5796fdc1fdb9ba221d0d5396814bfcaf9521f43fd8927fd" ∧
  VerifyWebhookSignatureFromMap fmt.Sprintf_d test_client
    ({[ "signature" := AnyString "0123abcd" ]} : gmap string (any Z))
    [ ("signature", AnyString "0123abcd") ] [] = false ∧
  VerifyWebhookSignatureFromMap fmt.Sprintf_d test_client
    ({[ "signature" := AnyString
          "f7f9bd47fb987337b5796fdc1fdb9ba221d0d5396814bfcaf9521f43fd8927fd" ]}
       : gmap string (any Z))
    [ ("signature", AnyString
          "f7f9bd47fb987337b5796fdc1fdb9ba221d0d5396814bfcaf9521f43fd8927fd") ]
    [] = true.
Proof. vm_compute. split_and!; reflexivity. Qed.

(** ** Tampering *)

(** Hexadecimal encoding loses nothing. *)
Lemma digit_inj i j :
  0 <= i < 16 → 0 <= j < 16 → hex.digit i = hex.digit j → i = j.
Proof.
  intros Hi Hj H.
  assert (∃ n, (n < 16)%nat ∧ i = Z.of_nat n) as (n & Hn & ->)
    by (exists (Z.to_nat i); lia).
  assert (∃ m, (m < 16)%nat ∧ j = Z.of_nat m) as (m & Hm & ->)
    by (exists (Z.to_nat j); lia).
  do 16 (destruct n as [|n];
    [ do 16 (destruct m as [|m];
        [ first [ reflexivity | exfalso; vm_compute in H; discriminate H ] |]);
      lia |]).
  lia.
Qed.

Lemma nibbles_range v :
  0 <= v < 256 → 0 <= Z.shiftr v 4 < 16 ∧ 0 <= Z.land v 0x0f < 16.
Proof.
  intros Hv. rewrite Z.shiftr_div_pow2 by lia.
  change 0x0f with (Z.ones 4). rewrite Z.land_ones by lia.
  change (2 ^ 4) with 16. Z.div_mod_to_equations. lia.
Qed.

Lemma nibbles_inj v w :
  0 <= v < 256 → 0 <= w < 256 →
  Z.shiftr v 4 = Z.shiftr w 4 → Z.land v 0x0f = Z.land w 0x0f → v = w.
Proof.
  intros Hv Hw. rewrite !Z.shiftr_div_pow2 by lia.
  change 0x0f with (Z.ones 4). rewrite !Z.land_ones by lia.
  change (2 ^ 4) with 16. Z.div_mod_to_equations. lia.
Qed.

Lemma EncodeToString_inj a b :
  hex.EncodeToString a = hex.EncodeToString b → a = b.
Proof.
  revert b. induction a as [|v a IH]; intros [|w b]; simpl; try done.
  intros [= Hhi Hlo Hrest].
  pose proof (Z_of_byte_range v) as Hv. pose proof (Z_of_byte_range w) as Hw.
  f_equal; [|by apply IH].
  apply Z_of_byte_inj, nibbles_inj; [done..| |].
  - apply digit_inj; [by apply nibbles_range..|done].
  - apply digit_inj; [by apply nibbles_range..|done].
Qed.

Lemma more_pairs_app l1 l2 :
  more_pairs (l1 ++ l2) = more_pairs l1 +:+ more_pairs l2.
Proof.
  induction l1 as [|p l1 IH]; [done|]. cbn [app more_pairs].
  by rewrite IH, !string_app_assoc.
Qed.

Lemma length_more_pairs l :
  String.length (more_pairs l)
  = sum_list_with (λ p, S (String.length p)) l.
Proof.
  induction l as [|p l IH]; [done|]. cbn [more_pairs sum_list_with].
  rewrite string_app_cons, string_app_nil_l. simpl.
  by rewrite string_length_app, IH.
Qed.

Lemma canonical_string_entries params order :
  canonical_string params order
  = String.concat "&" (map (entry params) (sort.Strings (collect_keys order))).
Proof.
  rewrite canonical_string_concat. unfold sorted_pairs. by rewrite map_map.
Qed.

Lemma canonical_string_sep params order :
  more_pairs (map (entry params) (sort.Strings (collect_keys order)))
  = match sort.Strings (collect_keys order) with
    | [] => ""
    | _ => "&" +:+ canonical_string params order
    end.
Proof.
  rewrite canonical_string_entries.
  destruct (sort.Strings (collect_keys order)) as [|k keys]; [done|].
  cbn [map]. by rewrite concat_more_pairs.
Qed.

Lemma length_canonical_string params order :
  String.length (canonical_string params order)
  = pred (sum_list_with (λ k, S (String.length (entry params k)))
            (sort.Strings (collect_keys order))).
Proof.
  pose proof (canonical_string_sep params order) as H.
  apply (f_equal String.length) in H.
  rewrite length_more_pairs in H.
  assert (∀ (f : string → string) l,
    sum_list_with (λ p, S (String.length p)) (map f l)
    = sum_list_with (λ k, S (String.length (f k))) l) as Hmap.
  { intros f l. induction l as [|x l IH]; [done|]. simpl. by rewrite IH. }
  rewrite Hmap in H. rewrite H.
  destruct (sort.Strings (collect_keys order)) eqn:Hk.
  - rewrite canonical_string_entries, Hk. done.
  - rewrite string_app_cons. done.
Qed.

Lemma sorted_keys_iff params order k :
  range_order params order →
  k ∈ sort.Strings (collect_keys order) ↔
  k ≠ "signature" ∧ index params k ≠ "".
Proof.
  intros H.
  by rewrite Strings_Permutation, (elem_of_collect_keys params), index_nonempty.
Qed.

Lemma sorted_keys_NoDup params order :
  range_order params order → NoDup (sort.Strings (collect_keys order)).
Proof. intros H. rewrite Strings_Permutation. by eapply collect_keys_NoDup. Qed.

Lemma entries_agree p p' (keys : list string) :
  (∀ k, k ∈ keys → index p' k = index p k) →
  map (entry p') keys = map (entry p) keys.
Proof.
  intros H. apply map_ext_in. intros k Hk%list_elem_of_In.
  unfold entry. by rewrite H.
Qed.

Lemma sum_list_with_agree {A} (f g : A → nat) l :
  (∀ x, x ∈ l → f x = g x) → sum_list_with f l = sum_list_with g l.
Proof.
  induction l as [|x l IH]; intros H; [done|]. simpl.
  rewrite (H x) by left. rewrite IH; [done|]. intros y Hy. apply H. by right.
Qed.

Lemma length_entry params k :
  String.length (entry params k)
  = (String.length k + S (String.length (index params k)))%nat.
Proof.
  unfold entry, pair_string. simpl. rewrite string_length_app.
  by rewrite string_app_cons, string_app_nil_l.
Qed.

(** A key whose value goes from empty (or absent) to non-empty makes the
    canonical string longer. *)
Lemma canonical_string_added p p' k order order' :
  range_order p order → range_order p' order' → k ≠ "signature" →
  index p k = "" → index p' k ≠ "" →
  (∀ k', k' ≠ k → index p' k' = index p k') →
  (String.length (canonical_string p order)
   < String.length (canonical_string p' order'))%nat.
Proof.
  intros H H' Hk Hv Hv' Hrest.
  assert (k ∉ sort.Strings (collect_keys order)) as Hnotin.
  { rewrite (sorted_keys_iff p) by done. intros [_ ?]. done. }
  assert (sort.Strings (collect_keys order')
          ≡ₚ k :: sort.Strings (collect_keys order)) as Hperm.
  { apply NoDup_Permutation.
    - by eapply sorted_keys_NoDup.
    - apply NoDup_cons. split; [done | by eapply sorted_keys_NoDup].
    - intros x. rewrite elem_of_cons.
      rewrite (sorted_keys_iff p'), (sorted_keys_iff p) by done.
      destruct (decide (x = k)) as [->|Hne]; [tauto|].
      rewrite (Hrest x Hne). tauto. }
  rewrite !length_canonical_string, Hperm. cbn [sum_list_with].
  rewrite (sum_list_with_agree
             (λ k0, S (String.length (entry p' k0)))
             (λ k0, S (String.length (entry p k0)))).
  - rewrite (length_entry p' k). lia.
  - intros x Hx. unfold entry. rewrite Hrest; [done|]. by intros ->.
Qed.

(** A key whose non-empty value is replaced by another non-empty value
    changes the canonical string at the place of that value only. *)
Lemma canonical_string_changed p p' k order order' :
  range_order p order → range_order p' order' → k ≠ "signature" →
  index p k ≠ "" → index p' k ≠ "" → index p' k ≠ index p k →
  (∀ k', k' ≠ k → index p' k' = index p k') →
  canonical_string p' order' ≠ canonical_string p order.
Proof.
  intros H H' Hk Hv Hv' Hne Hrest Heq.
  assert (sort.Strings (collect_keys order')
          = sort.Strings (collect_keys order)) as Hkeys.
  { apply Strings_proper, NoDup_Permutation;
      [by eapply collect_keys_NoDup..|].
    intros x.
    rewrite (elem_of_collect_keys p'), (elem_of_collect_keys p) by done.
    rewrite <- !index_nonempty.
    destruct (decide (x = k)) as [->|Hx]; [tauto|]. by rewrite (Hrest x Hx). }
  assert (k ∈ sort.Strings (collect_keys order)) as Hin
    by (by apply (sorted_keys_iff p)).
  pose proof (sorted_keys_NoDup p order H) as Hnd.
  pose proof (canonical_string_sep p order) as Hs.
  pose proof (canonical_string_sep p' order') as Hs'.
  rewrite Hkeys, Heq in Hs'. rewrite <- Hs in Hs'. clear Hs Hkeys Heq.
  apply list_elem_of_split in Hin as (keys1 & keys2 & Hsplit).
  rewrite Hsplit in Hs', Hnd.
  apply NoDup_app in Hnd as (_ & Hnotin1 & [Hnotin2 _]%NoDup_cons).
  rewrite !map_app, !more_pairs_app in Hs'. cbn [map more_pairs] in Hs'.
  rewrite (entries_agree p p' keys1), (entries_agree p p' keys2) in Hs'.
  - apply (inj (String.app _)) in Hs'. apply (inj (String.app _)) in Hs'.
    unfold entry, pair_string in Hs'. simpl in Hs'.
    rewrite !string_app_assoc in Hs'.
    apply (inj (String.app _)) in Hs'. apply (inj (String.app _)) in Hs'.
    by apply string_app_inj_r in Hs'.
  - intros x Hx. apply Hrest. by intros ->.
  - intros x Hx. apply Hrest. intros ->. by apply (Hnotin1 k); [|left].
Qed.

(** Changing what [params[k]] reads for one key other than ["signature"]
    always changes the canonical string. *)
Lemma canonical_string_mutated p p' k order order' :
  range_order p order → range_order p' order' → k ≠ "signature" →
  index p' k ≠ index p k →
  (∀ k', k' ≠ k → index p' k' = index p k') →
  canonical_string p' order' ≠ canonical_string p order.
Proof.
  intros H H' Hk Hne Hrest.
  destruct (decide (index p k = "")) as [Hv|Hv];
    [|destruct (decide (index p' k = "")) as [Hv'|Hv']].
  - intros Heq. assert (index p' k ≠ "") as Hv' by congruence.
    pose proof (canonical_string_added p p' k order order' H H' Hk Hv Hv' Hrest)
      as Hlt.
    rewrite Heq in Hlt. lia.
  - intros Heq.
    assert (∀ k', k' ≠ k → index p k' = index p' k') as Hrest'
      by (intros k' Hk'; symmetry; by apply Hrest).
    pose proof (canonical_string_added p' p k order' order H' H Hk Hv' Hv Hrest')
      as Hlt.
    rewrite Heq in Hlt. lia.
  - by apply canonical_string_changed with k.
Qed.

Lemma Sprintf_d_inj a b : fmt.Sprintf_d a = fmt.Sprintf_d b → a = b.
Proof.
  unfold fmt.Sprintf_d. intros H.
  assert (∀ n, NilZero.int_of_string (NilZero.string_of_int (Z.to_int n))
               = Some (Z.to_int n)) as Hparse.
  { intros n. apply NilZero.isi; intros Hn;
      (assert (n = 0) as ->
         by (rewrite <- (DecimalZ.of_to n); by rewrite Hn));
      discriminate Hn. }
  apply (f_equal NilZero.int_of_string) in H. rewrite !Hparse in H.
  injection H as H. apply (f_equal Z.of_int) in H.
  by rewrite !DecimalZ.of_to in H.
Qed.

Lemma same_field_string f p p' : same_field f p p' → field_string f p' = field_string f p.
Proof. destruct f; simpl; by intros ->. Qed.

Lemma field_string_exact f p p' :
  rounded f = false → field_string f p' = field_string f p → same_field f p p'.
Proof. destruct f; simpl; try done. intros _. apply Sprintf_d_inj. Qed.

Lemma field_key_not_signature f : field_key f ≠ "signature".
Proof. by destruct f. Qed.

Lemma field_key_inj f g : field_key f = field_key g → f = g.
Proof. by destruct f, g. Qed.

Lemma webhook_params_field payload f :
  index (webhook_params payload) (field_key f) = field_string f payload.
Proof. by destruct f. Qed.

Lemma webhook_params_other payload k :
  (∀ f, k ≠ field_key f) → index (webhook_params payload) k = "".
Proof.
  intros H. unfold index, webhook_params. cbn [list_to_map foldr fst snd].
  pose proof (H FTradeID). pose proof (H FOrderID). pose proof (H FAmount).
  pose proof (H FActualAmount). pose proof (H FToken). pose proof (H FChainType).
  pose proof (H FBlockTransactionID). pose proof (H FStatus). simpl in *.
  rewrite !lookup_insert_ne by done. by rewrite lookup_empty.
Qed.

Lemma field_key_cases k : (∃ f, k = field_key f) ∨ (∀ f, k ≠ field_key f).
Proof.
  destruct (decide (k ∈ field_key <$>
    [FTradeID; FOrderID; FAmount; FActualAmount; FToken; FChainType;
     FBlockTransactionID; FStatus])) as [Hin|Hnotin].
  - left. apply list_elem_of_fmap in Hin as (f & -> & _). by exists f.
  - right. intros f ->. apply Hnotin, list_elem_of_fmap. exists f.
    split; [done|]. destruct f; set_solver.
Qed.

Lemma webhook_params_agree payload payload' f :
  (∀ g, g ≠ f → same_field g payload payload') →
  ∀ k, k ≠ field_key f →
    index (webhook_params payload') k = index (webhook_params payload) k.
Proof.
  intros Hsame k Hk. destruct (field_key_cases k) as [[g ->]|Hother].
  - rewrite !webhook_params_field. apply same_field_string, Hsame.
    by intros ->.
  - by rewrite !webhook_params_other.
Qed.

Lemma generateSignature_eq_iff c p p' order order' :
  generateSignature c p' order' = generateSignature c p order ↔
  hmac.Sum (bytes_of_string (apiSecret c))
           (bytes_of_string (canonical_string p' order'))
  = hmac.Sum (bytes_of_string (apiSecret c))
             (bytes_of_string (canonical_string p order)).
Proof.
  unfold generateSignature. split; [apply EncodeToString_inj | by intros ->].
Qed.

(** C5, amended. Take a payload signed under the client's secret and change
    exactly one of its eight signed fields.
    - If the string under which the field enters the parameters is
      unchanged (possible only for [amount] and [actual_amount], which are
      rounded to 2 and 4 decimals), the original signature still verifies.
    - If that string changes, the canonical string changes, and the
      original signature verifies exactly when the two canonical strings
      have the same HMAC-SHA256 under the secret.
    - For the six fields that are not rounded, every change of the field
      changes its string. *)
Theorem tamper_detection c payload payload' f order order' :
  range_order (webhook_params payload) order →
  range_order (webhook_params payload') order' →
  ¬ same_field f payload payload' →
  (∀ g, g ≠ f → same_field g payload payload') →
  let signature := generateSignature c (webhook_params payload) order in
  let m := canonical_string (webhook_params payload) order in
  let m' := canonical_string (webhook_params payload') order' in
  let verdict :=
    VerifyWebhookSignature c (set_Signature payload' signature) order' in
  (field_string f payload' = field_string f payload → verdict = true) ∧
  (field_string f payload' ≠ field_string f payload →
     m' ≠ m ∧ (verdict = true ↔ hmac_collision (apiSecret c) m' m)) ∧
  (rounded f = false → field_string f payload' ≠ field_string f payload).
Proof.
  intros H H' Hchanged Hsame signature m m' verdict.
  pose proof (webhook_params_agree payload payload' f Hsame) as Hagree.
  assert (verdict = true ↔
          generateSignature c (webhook_params payload') order' = signature)
    as Hverdict.
  { unfold verdict. rewrite VerifyWebhookSignature_decide.
    by rewrite bool_decide_eq_true, webhook_params_set_Signature. }
  split_and!.
  - intros Hstr. apply Hverdict, generateSignature_agree; [done..|].
    intros k _. destruct (decide (k = field_key f)) as [->|Hk].
    + by rewrite !webhook_params_field.
    + by apply Hagree.
  - intros Hstr.
    assert (m' ≠ m) as Hm.
    { apply canonical_string_mutated with (field_key f);
        [done | done | apply field_key_not_signature | | done].
      by rewrite !webhook_params_field. }
    split; [done|]. rewrite Hverdict. unfold signature, hmac_collision.
    rewrite generateSignature_eq_iff. tauto.
  - intros Hf Hstr. by apply Hchanged, field_string_exact.
Qed.

Lemma tamper_detection_witness :
  let order := map_to_list (webhook_params paid_payload) in
  let signature :=
    generateSignature test_client (webhook_params paid_payload) order in
  let tampered := set_Amount paid_payload amount_999_99 in
  let order' := map_to_list (webhook_params tampered) in
  let m := canonical_string (webhook_params paid_payload) order in
  let m' := canonical_string (webhook_params tampered) order' in
  let verdict :=
    VerifyWebhookSignature test_client (set_Signature tampered signature)
      order' in
  (field_string FAmount tampered = field_string FAmount paid_payload →
     verdict = true) ∧
  (field_string FAmount tampered ≠ field_string FAmount paid_payload →
     m' ≠ m ∧ (verdict = true ↔ hmac_collision "test_secret" m' m)) ∧
  (rounded FAmount = false →
     field_string FAmount tampered ≠ field_string FAmount paid_payload).
Proof.
  apply (tamper_detection test_client paid_payload
           (set_Amount paid_payload amount_999_99) FAmount).
  - apply (bool_decide_unpack _). vm_compute. exact I.
  - apply (bool_decide_unpack _). vm_compute. exact I.
  - simpl. discriminate.
  - intros g Hg. destruct g; simpl; done.
Defined.

(** The two assertions of [TestIntegration_WebhookSignatureVerification]. *)
Example TestIntegration_WebhookSignatureVerification :
  let order := map_to_list (webhook_params paid_payload) in
  let signature :=
    generateSignature test_client (webhook_params paid_payload) order in
  let payload := set_Signature paid_payload signature in
  let tampered := set_Amount payload amount_999_99 in
  canonical_string (webhook_params payload) order =
    "actual_amount=15.6250&amount=100.00&block_transaction_id=0x789xyz&chain_type=BSC&order_id=TEST_ORDER_001&status=2&token=0xabc123def456&trade_id=CP123456789" ∧
  VerifyWebhookSignature test_client payload order = true ∧
  VerifyWebhookSignature test_client tampered
    (map_to_list (webhook_params tampered)) = false.
Proof. vm_compute. split_and!; reflexivity. Qed.

(** C5 as stated fails: an amount changed within the same two-decimal
    rendering (100 to 100.0009765625) is a different value of the field,
    and the original signature still verifies. *)
Lemma tamper_undetected :
  let order := map_to_list (webhook_params paid_payload) in
  let signature :=
    generateSignature test_client (webhook_params paid_payload) order in
  let payload := set_Signature paid_payload signature in
  let tampered := set_Amount payload amount_100_0009765625 in
  fmt.valid_float64 (Amount payload) = true ∧
  fmt.valid_float64 (Amount tampered) = true ∧
  Amount tampered ≠ Amount payload ∧
  (∀ g, g ≠ FAmount → same_field g payload tampered) ∧
  VerifyWebhookSignature test_client payload order = true ∧
  VerifyWebhookSignature test_client tampered
    (map_to_list (webhook_params tampered)) = true.
Proof.
  split_and!; try (vm_compute; reflexivity).
  - discriminate.
  - intros g Hg. destruct g; simpl; done.
Qed.

(** ** Collisions exist *)

Lemma digest_value_range l : 0 <= digest_value l < 256 ^ Z.of_nat (length l).
Proof.
  induction l as [|b l IH]; [simpl; lia|].
  cbn [digest_value foldr length]. fold (digest_value l).
  pose proof (Z_of_byte_range b). rewrite Nat2Z.inj_succ, Z.pow_succ_r by lia.
  lia.
Qed.

Lemma digest_value_inj l l' :
  length l = length l' → digest_value l = digest_value l' → l = l'.
Proof.
  revert l'. induction l as [|b l IH]; intros [|b' l'] Hlen; try done.
  cbn [digest_value foldr]. fold (digest_value l) (digest_value l').
  pose proof (Z_of_byte_range b). pose proof (Z_of_byte_range b').
  intros Hv. simplify_eq/=.
  assert (Z_of_byte b = Z_of_byte b' ∧ digest_value l = digest_value l')
    as [Hb Hl] by lia.
  f_equal; [by apply Z_of_byte_inj | by apply IH].
Qed.

(** A sequence of numbers below a common bound repeats itself. *)
Lemma Z_pigeonhole (f : nat → Z) (B : Z) :
  (∀ i, 0 <= f i < B) → ∃ i j, (i < j)%nat ∧ f i = f j.
Proof.
  intros Hf.
  destruct (nat_pigeonhole (λ i, Z.to_nat (f i)) (S (Z.to_nat B)) (Z.to_nat B))
    as (i & j & Hij & Heq).
  - lia.
  - intros i _. pose proof (Hf i). lia.
  - exists i, j. split; [lia|].
    pose proof (Hf i). pose proof (Hf j). lia.
Qed.

(** Among more messages than there are digests, two have the same
    HMAC-SHA256, whatever the key. *)
Lemma hmac_collision_exists key (msg : nat → string) :
  (∀ i j, msg i = msg j → i = j) →
  ∃ i j, (i < j)%nat ∧ hmac_collision key (msg i) (msg j).
Proof.
  intros Hinj.
  destruct (Z_pigeonhole
              (λ i, digest_value
                      (hmac.Sum (bytes_of_string key) (bytes_of_string (msg i))))
              (256 ^ Z.of_nat sha256.Size)) as (i & j & Hij & Heq).
  - intros i.
    rewrite <- (length_hmac_Sum (bytes_of_string key) (bytes_of_string (msg i))).
    apply digest_value_range.
  - exists i, j. split; [done|]. split.
    + intros Hm. apply Hinj in Hm. lia.
    + apply digest_value_inj; [by rewrite !length_hmac_Sum | done].
Qed.

Lemma length_a_string n : String.length (a_string n) = n.
Proof. induction n as [|n IH]; simpl; [done | by rewrite IH]. Qed.

(** For every secret and every payload, two trade ids exist such that the
    signature computed with the one verifies with the other, all other
    fields being those of the payload. *)
Lemma tamper_collision_exists c payload :
  ∃ id id',
    id ≠ id' ∧
    let p := set_TradeID payload id in
    let p' := set_TradeID payload id' in
    VerifyWebhookSignature c
      (set_Signature p'
         (generateSignature c (webhook_params p) (map_to_list (webhook_params p))))
      (map_to_list (webhook_params p')) = true.
Proof.
  pose (p i := set_TradeID payload (a_string i)).
  pose (msg i := canonical_string (webhook_params (p i))
                   (map_to_list (webhook_params (p i)))).
  assert (∀ i j, i ≠ j → a_string i ≠ a_string j) as Hids.
  { intros i j Hij Heq. apply (f_equal String.length) in Heq.
    by rewrite !length_a_string in Heq. }
  destruct (hmac_collision_exists (apiSecret c) msg) as (i & j & Hij & Hcol).
  { intros i j Heq. destruct (decide (i = j)) as [|Hne]; [done|]. exfalso.
    revert Heq. unfold msg.
    apply (canonical_string_mutated _ _ (field_key FTradeID));
      [apply range_order_map_to_list.. | done | |].
    - rewrite !webhook_params_field. by apply Hids.
    - apply (webhook_params_agree _ _ FTradeID). intros g Hg.
      by destruct g. }
  exists (a_string i), (a_string j). split; [apply Hids; lia|]. cbv zeta.
  rewrite VerifyWebhookSignature_decide, webhook_params_set_Signature.
  rewrite Signature_set_Signature.
  apply bool_decide_eq_true, generateSignature_eq_iff.
  destruct Hcol as [_ Heq]. symmetry. apply Heq.
Qed.
